(** * GeminiTelegramBot (src/bot.py): conversation store, dispatch and
    long-message splitting

    A shallow embedding of the handlers of [GeminiTelegramBot] and of
    [send_long_message].  Python [str] values are sequences of Unicode code
    points, so a text is a list of code points and [len] is [length].  The
    handlers mutate [self.chat_history], call the Gemini backends and reply
    through the Telegram transport: they are written in a small monad that
    threads the dictionary, records the calls made to the outside world and
    propagates Python exceptions up to the enclosing [try]/[except]. *)

From Stdlib Require Import List ZArith NArith Lia Bool Decimal.
From stdpp Require Import base option list gmap.

Import ListNotations.

(** ** Texts *)

Abbreviation char := N (only parsing).
Abbreviation text := (list N) (only parsing).

(** The members of the list [['\n', '.', '!', '?', ' ']] of line 222. *)
Definition break_chars : text := [10; 46; 33; 63; 32]%N.

Definition is_break (c : char) : bool :=
  existsb (N.eqb c) break_chars.

(** [str.lstrip()] without argument removes the leading characters for which
    [str.isspace] holds; these are the code points CPython classifies as
    white space. *)
Definition is_space (c : char) : bool :=
  ((9 <=? c) && (c <=? 13) || (28 <=? c) && (c <=? 32)
   || (c =? 133) || (c =? 160) || (c =? 5760)
   || (8192 <=? c) && (c <=? 8202)
   || (c =? 8232) || (c =? 8233) || (c =? 8239) || (c =? 8287)
   || (c =? 12288))%N.

Fixpoint lstrip (t : text) : text :=
  match t with
  | c :: r => if is_space c then lstrip r else t
  | [] => []
  end.

(** The prefix that [lstrip] removes. *)
Fixpoint leading_space (t : text) : text :=
  match t with
  | c :: r => if is_space c then c :: leading_space r else []
  | [] => []
  end.

(** [str(n)] for a natural number, as used by the f-string of line 236. *)
Fixpoint digits (u : Decimal.uint) : text :=
  match u with
  | Nil => []
  | D0 r => 48%N :: digits r
  | D1 r => 49%N :: digits r
  | D2 r => 50%N :: digits r
  | D3 r => 51%N :: digits r
  | D4 r => 52%N :: digits r
  | D5 r => 53%N :: digits r
  | D6 r => 54%N :: digits r
  | D7 r => 55%N :: digits r
  | D8 r => 56%N :: digits r
  | D9 r => 57%N :: digits r
  end.

Definition str_of_nat (n : nat) : text := digits (Nat.to_uint n).

Definition str_of_int (z : Z) : text :=
  match Z.to_int z with
  | Decimal.Pos u => digits u
  | Decimal.Neg u => 45%N :: digits u
  end.

(** ** Outcomes of a computation

    [Raise e] is a Python exception whose [str(e)] is [e]; [Diverge] is a
    loop that has not finished within the iterations it was given. *)

Inductive Outcome (A : Type) : Type :=
| Return (a : A)
| Raise (e : text)
| Diverge.

Arguments Return {A} a.
Arguments Raise {A} e.
Arguments Diverge {A}.

Definition outcome_bind {A B} (f : A -> Outcome B) (o : Outcome A) : Outcome B :=
  match o with
  | Return a => f a
  | Raise e => Raise e
  | Diverge => Diverge
  end.

#[global] Instance outcome_mret : MRet Outcome := fun _ a => Return a.
#[global] Instance outcome_mbind : MBind Outcome := fun _ _ f o => outcome_bind f o.

(** [IndexError] of [text[cut_pos]]. *)
Definition string_index_error : text :=
  [115; 116; 114; 105; 110; 103; 32; 105; 110; 100; 101; 120; 32; 111; 117;
   116; 32; 111; 102; 32; 114; 97; 110; 103; 101]%N.

(** ** The splitting loop of [send_long_message] (lines 213-229) *)

Section Chunker.

Variable max_length : nat.

(** Lines 222-223: [while cut_pos > 0 and text[cut_pos] not in [...]]. *)
Fixpoint find_cut (t : text) (cut_pos : nat) : Outcome nat :=
  match cut_pos with
  | 0 => Return 0
  | S below =>
      match t !! cut_pos with
      | None => Raise string_index_error
      | Some c => if is_break c then Return cut_pos else find_cut t below
      end
  end.

(** Lines 221-226: the scan starts at [max_length]; reaching 0 means a hard
    cut at [max_length]. *)
Definition choose_cut (t : text) : Outcome nat :=
  cut_pos ← find_cut t max_length;
  mret (if cut_pos =? 0 then max_length else cut_pos).

(** Lines 215-229: [while text: ...].  Every iteration is one unit of
    [fuel]; [parts.append] builds the list front to back. *)
Fixpoint split_loop (fuel : nat) (t : text) : Outcome (list text) :=
  match fuel with
  | 0 => Diverge
  | S fuel' =>
      match t with
      | [] => Return []
      | _ :: _ =>
          if length t <=? max_length then Return [t]
          else
            cut_pos ← choose_cut t;
            rest ← split_loop fuel' (lstrip (drop cut_pos t));
            mret (take cut_pos t :: rest)
      end
  end.

(** The loop run on [t] with as many iterations as [t] can need. *)
Definition split_parts (t : text) : Outcome (list text) :=
  split_loop (S (length t)) t.

(** The parts that [send_long_message] sends for [t]: the text itself on
    the short branch of line 210, the parts of the loop otherwise. *)
Definition segments_of (t : text) : Outcome (list text) :=
  if length t <=? max_length then Return [t] else split_parts t.

End Chunker.

(** ** Conversation state and the outside world *)

Inductive Role : Type := user | model.

(** A history entry [{'role': ..., 'parts': [...]}]. *)
Record Turn : Type := { role : Role; parts : list text }.

(** [self.chat_history]: a dict from user id to the list of turns. *)
Abbreviation Store := (gmap Z (list Turn)) (only parsing).

Abbreviation Image := N (only parsing).

(** The fields of a Telegram [Update] the handlers read: the sender, the
    chat, [message.text], [message.photo] (file ids, smallest size first)
    and [message.caption]. *)
Record Update : Type := {
  effective_user : Z;
  effective_chat : Z;
  message_text : text;
  message_photo : list N;
  message_caption : option text
}.

(** Calls that leave the process, in the order they are made.  Every
    [reply_text] of the source uses [parse_mode='Markdown']. *)
Inductive Call : Type :=
| SendChatAction (chat_id : Z)
| GeminiChat (history : list Turn) (message : text)
| FetchPhoto (file_id : N)
| GenerateContent (prompt : text) (img : Image)
| ReplyText (t : text)
| LoggerError (t : text).

(** What an external service answers to one call: a value, or an exception
    with its message. *)
Inductive External (A : Type) : Type :=
| Gives (a : A)
| Fails (cause : text).

Arguments Gives {A} a.
Arguments Fails {A} cause.

(** ** The handler monad

    A handler step reads and writes the store, appends to the trace of
    calls, and ends in an [Outcome].  An exception keeps the writes and the
    calls made before it, as in Python. *)

Definition Handler (A : Type) : Type :=
  gmap Z (list Turn) -> Outcome A * gmap Z (list Turn) * list Call.

Definition handler_ret {A} (a : A) : Handler A :=
  fun st => (Return a, st, []).

Definition handler_bind {A B} (f : A -> Handler B) (m : Handler A) : Handler B :=
  fun st =>
    match m st with
    | (Return a, st1, calls1) =>
        match f a st1 with
        | (o, st2, calls2) => (o, st2, calls1 ++ calls2)
        end
    | (Raise e, st1, calls1) => (Raise e, st1, calls1)
    | (Diverge, st1, calls1) => (Diverge, st1, calls1)
    end.

#[global] Instance handler_mret : MRet Handler := fun _ a => handler_ret a.
#[global] Instance handler_mbind : MBind Handler := fun _ _ f m => handler_bind f m.

(** [try: body except Exception as e: on_error(e)]. *)
Definition try_except {A} (body : Handler A) (on_error : text -> Handler A) : Handler A :=
  fun st =>
    match body st with
    | (Raise e, st1, calls1) =>
        match on_error e st1 with
        | (o, st2, calls2) => (o, st2, calls1 ++ calls2)
        end
    | done => done
    end.

Definition lift {A} (o : Outcome A) : Handler A :=
  fun st => (o, st, []).

Definition call (c : Call) : Handler unit :=
  fun st => (Return (), st, [c]).

(** A call whose answer comes from outside. *)
Definition external {A} (c : Call) (answer : External A) : Handler A :=
  fun st =>
    match answer with
    | Gives a => (Return a, st, [c])
    | Fails cause => (Raise cause, st, [c])
    end.

(** [user_id in self.chat_history]. *)
Definition contains (user_id : Z) : Handler bool :=
  fun st => (Return (bool_decide (is_Some (st !! user_id))), st, []).

(** [self.chat_history[user_id]]; a missing key is a [KeyError], whose
    [str] is the key. *)
Definition getitem (user_id : Z) : Handler (list Turn) :=
  fun st =>
    match st !! user_id with
    | Some h => (Return h, st, [])
    | None => (Raise (str_of_int user_id), st, [])
    end.

(** [self.chat_history[user_id] = h]. *)
Definition setitem (user_id : Z) (h : list Turn) : Handler unit :=
  fun st => (Return (), <[user_id := h]> st, []).

(** [self.chat_history[user_id].append(turn)]: the list stored under the key
    grows in place. *)
Definition append (user_id : Z) (turn : Turn) : Handler unit :=
  h ← getitem user_id;
  setitem user_id (h ++ [turn]).

(** ** [send_long_message] (lines 206-236) *)

Definition max_length : nat := 4096.

(** The header [f"*...продолжение ({i+1}/{len(parts)})*\n\n"] of line 236. *)
Definition continuation (number total : nat) : text :=
  [42; 46; 46; 46; 1087; 1088; 1086; 1076; 1086; 1083; 1078; 1077; 1085;
   1080; 1077; 32; 40]%N
  ++ str_of_nat number ++ [47]%N ++ str_of_nat total ++ [41; 42; 10; 10]%N.

(** Lines 232-236: [for i, part in enumerate(parts)]. *)
Fixpoint send_parts (total i : nat) (ps : list text) : Handler unit :=
  match ps with
  | [] => mret ()
  | part :: rest =>
      call (ReplyText (if i =? 0 then part
                       else continuation (i + 1) total ++ part));;
      send_parts total (S i) rest
  end.

Definition send_long_message (t : text) : Handler unit :=
  if length t <=? max_length then call (ReplyText t)
  else
    ps ← lift (split_parts max_length t);
    send_parts (length ps) 0 ps.

(** The segments of [t] at the bot's limit. *)
Definition segments (t : text) : Outcome (list text) :=
  segments_of max_length t.

(** ** [handle_text_message] (lines 114-163) *)

(** [logger.error(f"Ошибка при обработке сообщения: {e}")]. *)
Definition text_log (e : text) : text :=
  [1054; 1096; 1080; 1073; 1082; 1072; 32; 1087; 1088; 1080; 32; 1086; 1073;
   1088; 1072; 1073; 1086; 1090; 1082; 1077; 32; 1089; 1086; 1086; 1073;
   1097; 1077; 1085; 1080; 1103; 58; 32]%N ++ e.

(** The reply of lines 160-163, with [str(e)] between back quotes. *)
Definition text_error (e : text) : text :=
  [10060; 32; 42; 42; 1055; 1088; 1086; 1080; 1079; 1086; 1096; 1083; 1072;
   32; 1086; 1096; 1080; 1073; 1082; 1072; 58; 42; 42; 10; 96]%N
  ++ e
  ++ [96; 10; 10; 1055; 1086; 1087; 1088; 1086; 1073; 1091; 1081; 1090; 1077;
      32; 1077; 1097; 1077; 32; 1088; 1072; 1079; 46]%N.

Definition handle_text_message (update : Update) (gemini : External text)
  : Handler unit :=
  let user_id := effective_user update in
  let user_text := message_text update in
  call (SendChatAction (effective_chat update));;
  try_except
    (known ← contains user_id;
     (if known : bool then mret () else setitem user_id []);;
     append user_id {| role := user; parts := [user_text] |};;
     h ← getitem user_id;
     response ← external (GeminiChat (take (length h - 1) h) user_text) gemini;
     append user_id {| role := model; parts := [response] |};;
     h ← getitem user_id;
     (if 20 <? length h
      then h ← getitem user_id; setitem user_id (drop (length h - 20) h)
      else mret ());;
     send_long_message response)
    (fun e =>
       call (LoggerError (text_log e));;
       call (ReplyText (text_error e))).

(** ** [handle_photo_message] (lines 165-204) *)

(** [IndexError] of [update.message.photo[-1]] on an empty list. *)
Definition list_index_error : text :=
  [108; 105; 115; 116; 32; 105; 110; 100; 101; 120; 32; 111; 117; 116; 32;
   111; 102; 32; 114; 97; 110; 103; 101]%N.

(** ["Опиши подробно что видишь на этом изображении"]. *)
Definition default_prompt : text :=
  [1054; 1087; 1080; 1096; 1080; 32; 1087; 1086; 1076; 1088; 1086; 1073;
   1085; 1086; 32; 1095; 1090; 1086; 32; 1074; 1080; 1076; 1080; 1096; 1100;
   32; 1085; 1072; 32; 1101; 1090; 1086; 1084; 32; 1080; 1079; 1086; 1073;
   1088; 1072; 1078; 1077; 1085; 1080; 1080]%N.

(** [caption or default]: [None] and the empty string are both falsy. *)
Definition caption_or (caption : option text) (default : text) : text :=
  match caption with
  | Some (c :: r) => c :: r
  | Some [] => default
  | None => default
  end.

(** ["🖼️ **Анализ изображения:**\n\n"]. *)
Definition analysis_label : text :=
  [128444; 65039; 32; 42; 42; 1040; 1085; 1072; 1083; 1080; 1079; 32; 1080;
   1079; 1086; 1073; 1088; 1072; 1078; 1077; 1085; 1080; 1103; 58; 42; 42;
   10; 10]%N.

Definition photo_log (e : text) : text :=
  [1054; 1096; 1080; 1073; 1082; 1072; 32; 1087; 1088; 1080; 32; 1086; 1073;
   1088; 1072; 1073; 1086; 1090; 1082; 1077; 32; 1080; 1079; 1086; 1073;
   1088; 1072; 1078; 1077; 1085; 1080; 1103; 58; 32]%N ++ e.

Definition photo_error (e : text) : text :=
  [10060; 32; 42; 42; 1054; 1096; 1080; 1073; 1082; 1072; 32; 1087; 1088;
   1080; 32; 1072; 1085; 1072; 1083; 1080; 1079; 1077; 32; 1080; 1079; 1086;
   1073; 1088; 1072; 1078; 1077; 1085; 1080; 1103; 58; 42; 42; 10; 96]%N
  ++ e ++ [96]%N.

(** [fetch] answers the download and decoding of the chosen photo (lines
    175-184), [vision] answers [generate_content] and [response.text]. *)
Definition handle_photo_message (update : Update)
    (fetch : External Image) (vision : External text) : Handler unit :=
  call (SendChatAction (effective_chat update));;
  try_except
    (photo ← match last (message_photo update) with
             | Some p => mret p
             | None => lift (Raise list_index_error)
             end;
     img ← external (FetchPhoto photo) fetch;
     let prompt := caption_or (message_caption update) default_prompt in
     response ← external (GenerateContent prompt img) vision;
     send_long_message (analysis_label ++ response))
    (fun e =>
       call (LoggerError (photo_log e));;
       call (ReplyText (photo_error e))).

(** ** [new_chat_command] (lines 104-112) *)

(** ["🔄 **История чата очищена!**\n\nТеперь можете начать новый разговор."]. *)
Definition reset_text : text :=
  [128260; 32; 42; 42; 1048; 1089; 1090; 1086; 1088; 1080; 1103; 32; 1095;
   1072; 1090; 1072; 32; 1086; 1095; 1080; 1097; 1077; 1085; 1072; 33; 42;
   42; 10; 10; 1058; 1077; 1087; 1077; 1088; 1100; 32; 1084; 1086; 1078;
   1077; 1090; 1077; 32; 1085; 1072; 1095; 1072; 1090; 1100; 32; 1085; 1086;
   1074; 1099; 1081; 32; 1088; 1072; 1079; 1075; 1086; 1074; 1086; 1088;
   46]%N.

Definition new_chat_command (update : Update) : Handler unit :=
  setitem (effective_user update) [];;
  call (ReplyText reset_text).

(** ** [button_callback] (lines 238-263) *)







(** ** Observations on a run *)

Definition store_after {A} (r : Outcome A * gmap Z (list Turn) * list Call)
  : gmap Z (list Turn) := snd (fst r).

Definition calls_of {A} (r : Outcome A * gmap Z (list Turn) * list Call)
  : list Call := snd r.

Definition outcome_of {A} (r : Outcome A * gmap Z (list Turn) * list Call)
  : Outcome A := fst (fst r).

(** The messages sent to the user. *)
Fixpoint replies (calls : list Call) : list text :=
  match calls with
  | [] => []
  | ReplyText t :: rest => t :: replies rest
  | _ :: rest => replies rest
  end.

(** The prompts given to the vision model. *)
Fixpoint vision_prompts (calls : list Call) : list text :=
  match calls with
  | [] => []
  | GenerateContent p _ :: rest => p :: vision_prompts rest
  | _ :: rest => vision_prompts rest
  end.

(** The history of a user, empty when the user is unknown. *)
Definition history_of (st : gmap Z (list Turn)) (user_id : Z) : list Turn :=
  default [] (st !! user_id).

(** A run of text messages, each with the answer the backend gives to it. *)
Fixpoint handle_texts (events : list (Update * External text))
    (st : gmap Z (list Turn)) : gmap Z (list Turn) :=
  match events with
  | [] => st
  | (update, gemini) :: rest =>
      handle_texts rest (store_after (handle_text_message update gemini st))
  end.

(** ** Vocabulary of the statements *)

(** Is the character at index [i] one of the break characters? *)
Definition break_at (t : text) (i : nat) : bool :=
  match t !! i with
  | Some c => is_break c
  | None => false
  end.

(** Is there a break character among [t[i+1]], ..., [t[k]]? *)
Definition breaks_between (t : text) (i k : nat) : bool :=
  existsb is_break (take (k - i) (drop (S i) t)).

Definition all_space (t : text) : bool := forallb is_space t.

(** The parts written one after the other, the i-th gap after the i-th part;
    parts beyond the last gap follow each other directly. *)
Fixpoint interleave (ps gaps : list text) : text :=
  match ps, gaps with
  | [], _ => []
  | p :: ps', [] => p ++ interleave ps' []
  | p :: ps', g :: gaps' => p ++ g ++ interleave ps' gaps'
  end.

(** The last [n] elements of a list: the slice [l[-n:]] when [n > 0]. *)
Definition last_n {A} (n : nat) (l : list A) : list A :=
  drop (length l - n) l.

(** The two turns of a successful exchange. *)
Definition exchange_turns (e : text * text) : list Turn :=
  [ {| role := user; parts := [fst e] |};
    {| role := model; parts := [snd e] |} ].

(** [ps] splits [t]: every part is non-empty and no longer than [m], and
    [t] is the parts with a run of white space after each of them. *)
Definition splits_into (m : nat) (t : text) (ps : list text) : Prop :=
  Forall (fun p : text => 1 <= length p <= m) ps /\
  exists gaps : list text,
    length gaps = length ps /\
    Forall (fun g : text => all_space g = true) gaps /\
    interleave ps gaps = t.

(** Lines 152-153: keep the last 20 turns when there are more. *)
Definition trimmed (h : list Turn) : list Turn :=
  if 20 <? length h then drop (length h - 20) h else h.

(** The turn appended for the text of an update. *)
Definition user_turn (update : Update) : Turn :=
  {| role := user; parts := [message_text update] |}.

Definition model_turn (response : text) : Turn :=
  {| role := model; parts := [response] |}.

(** The store once lines 127-128 have run for [user_id]. *)
Definition ensured (user_id : Z) (st : gmap Z (list Turn))
  : gmap Z (list Turn) :=
  match st !! user_id with
  | Some _ => st
  | None => <[user_id := []]> st
  end.

(** A text message of a user. *)
Definition text_update (user_id chat_id : Z) (t : text) : Update :=
  {| effective_user := user_id; effective_chat := chat_id;
     message_text := t; message_photo := []; message_caption := None |}.

(** The event of a message [fst e] that the backend answers with [snd e]. *)
Definition answered (user_id chat_id : Z) (e : text * text)
  : Update * External text :=
  (text_update user_id chat_id (fst e), Gives (snd e)).

(** The same update without its caption. *)
Definition without_caption (update : Update) : Update :=
  {| effective_user := effective_user update;
     effective_chat := effective_chat update;
     message_text := message_text update;
     message_photo := message_photo update;
     message_caption := None |}.

(** The reply sent for the part at index [i] of [total] parts (lines
    233-236). *)
Definition reply_for (total i : nat) (part : text) : text :=
  if i =? 0 then part else continuation (i + 1) total ++ part.

(** A part that is not empty and does not start with white space. *)
Definition starts_solid (p : text) : bool :=
  match p with
  | c :: _ => negb (is_space c)
  | [] => false
  end.

(** A character that is neither a break character nor white space. *)
Definition is_plain (c : char) : bool := negb (is_break c) && negb (is_space c).

Definition other_role (r : Role) : Role :=
  match r with user => model | model => user end.

Definition role_eqb (r r' : Role) : bool :=
  match r, r' with
  | user, user | model, model => true
  | _, _ => false
  end.

(** The roles of [h] alternate, the first one being [first]. *)
Fixpoint alternates (first : Role) (h : list Turn) : bool :=
  match h with
  | [] => true
  | t :: rest => role_eqb (role t) first && alternates (other_role first) rest
  end.

(** A history as answered messages leave it: user and model turns in turn,
    starting with a user turn, an even number of them, at most 20. *)
Definition paired (h : list Turn) : Prop :=
  alternates user h = true /\ Nat.even (length h) = true /\ length h <= 20.

(** The event was answered by the backend. *)
Definition is_answered (event : Update * External text) : bool :=
  match snd event with
  | Gives _ => true
  | Fails _ => false
  end.

(** ** Sample inputs *)

(** 5000 characters; the only break character is a space at index 4080. *)
Definition scenario_text : text :=
  repeat 97%N 4080 ++ [32%N] ++ repeat 98%N 919.

(** 4096 letters followed by one space. *)
Definition trailing_space_text : text := repeat 97%N 4096 ++ [32%N].

(** A space at index 0 followed by 4200 letters. *)
Definition leading_space_text : text := 32%N :: repeat 97%N 4200.

(** Exchange number [n]: the question is the digits of [n], the answer is
    ["re"] followed by them. *)
Definition numbered_exchange (n : nat) : text * text :=
  (str_of_nat n, [114; 101]%N ++ str_of_nat n).

(** Exchanges 1 to 11. *)
Definition eleven_exchanges : list (text * text) :=
  map numbered_exchange (seq 1 11).

(** Ten answered messages of user 7, then one on which the backend fails. *)
Definition ten_answered_one_failed : list (Update * External text) :=
  map (answered 7 7) (map numbered_exchange (seq 1 10))
  ++ [(text_update 7 7 [104; 105]%N, Fails [53; 48; 51]%N)].

(** A photo with an empty caption. *)
Definition empty_caption_photo : Update :=
  {| effective_user := 7; effective_chat := 7; message_text := [];
     message_photo := [11; 12; 13]%N; message_caption := Some [] |}.

(** 8200 letters: two full parts and a short one. *)
Definition long_plain_text : text := repeat 97%N (4096 + 4096 + 8).

(** Answered messages of users 7 and 8, interleaved. *)
Definition two_users_events : list (Update * External text) :=
  [answered 7 70 (numbered_exchange 1); answered 8 80 (numbered_exchange 2);
   answered 7 70 (numbered_exchange 3)].

(** A photo with a caption of three letters. *)
Definition captioned_photo : Update :=
  {| effective_user := 7; effective_chat := 7; message_text := [];
     message_photo := [11; 12; 13]%N; message_caption := Some [99; 97; 116]%N |}.

(** ** Stripping *)

Lemma leading_space_lstrip (t : text) : leading_space t ++ lstrip t = t.
Proof.
  induction t as [|c r IH]; simpl; [done|].
  destruct (is_space c); simpl; [by rewrite IH | done].
Qed.

Lemma leading_space_all_space (t : text) : all_space (leading_space t) = true.
Proof.
  induction t as [|c r IH]; simpl; [done|].
  destruct (is_space c) eqn:E; simpl; [by rewrite E | done].
Qed.

Lemma length_lstrip (t : text) : length (lstrip t) <= length t.
Proof.
  rewrite <- (leading_space_lstrip t) at 2. rewrite length_app. lia.
Qed.

Lemma lstrip_head (t : text) c r : lstrip t = c :: r -> is_space c = false.
Proof.
  induction t as [|d s IH]; simpl; [done|].
  destruct (is_space d) eqn:E; [exact IH|]. intros [= <- _]. exact E.
Qed.

(** ** The backward scan *)

Lemma breaks_between_lookup (t : text) i k j :
  breaks_between t i k = false -> i < j <= k -> break_at t j = false.
Proof.
  unfold breaks_between, break_at. intros Hex Hj.
  destruct (t !! j) as [c|] eqn:Hc; [|done].
  destruct (is_break c) eqn:Hb; [|done].
  assert (Hin : In c (take (k - i) (drop (S i) t))).
  { apply list_elem_of_In, list_elem_of_lookup. exists (j - S i).
    rewrite lookup_take_lt by lia. rewrite lookup_drop.
    replace (S i + (j - S i)) with j by lia. done. }
  assert (existsb is_break (take (k - i) (drop (S i) t)) = true)
    by (apply existsb_exists; eauto).
  congruence.
Qed.

(** The scan never leaves the text when it starts inside it. *)
Lemma find_cut_returns (t : text) k :
  k < length t -> exists c, find_cut t k = Return c /\ c <= k.
Proof.
  induction k as [|k IH]; intros Hk; simpl; [by exists 0|].
  destruct (lookup_lt_is_Some_2 t (S k) Hk) as [c Hc]. rewrite Hc.
  destruct (is_break c).
  - by exists (S k).
  - destruct IH as (c' & -> & Hle); [lia|]. exists c'. split; [done|lia].
Qed.

(** It stops at the last break character at or below its start, index 0
    excepted. *)
Lemma find_cut_at_break (t : text) i k :
  1 <= i <= k -> k < length t ->
  break_at t i = true -> breaks_between t i k = false ->
  find_cut t k = Return i.
Proof.
  intros Hi Hk Hb Hnone. induction k as [|k IH]; [lia|].
  simpl. destruct (decide (i = S k)) as [->|Hne].
  - unfold break_at in Hb. destruct (t !! S k) as [c|]; [|done]. by rewrite Hb.
  - pose proof (breaks_between_lookup t i (S k) (S k) Hnone ltac:(lia)) as Hk'.
    unfold break_at in Hk'.
    destruct (lookup_lt_is_Some_2 t (S k) Hk) as [c Hc]. rewrite Hc in Hk' |- *.
    rewrite Hk'. apply IH; [lia|lia|].
    unfold breaks_between in *. apply not_true_is_false. intros Hex.
    apply existsb_exists in Hex as (x & Hin & Hx).
    apply list_elem_of_In, list_elem_of_lookup in Hin as [j Hj].
    apply lookup_take_Some in Hj as [Hj Hlt]. rewrite lookup_drop in Hj.
    pose proof (breaks_between_lookup t i (S k) (S i + j)) as Hcontra.
    unfold breaks_between, break_at in Hcontra. rewrite Hj, Hx in Hcontra.
    discriminate Hcontra; [exact Hnone | lia].
Qed.

(** It reaches 0 when no index from 1 to its start holds a break character,
    whatever the character at index 0 is. *)
Lemma find_cut_no_break (t : text) k :
  k < length t -> breaks_between t 0 k = false -> find_cut t k = Return 0.
Proof.
  intros Hk Hnone. induction k as [|k IH]; [done|]. simpl.
  pose proof (breaks_between_lookup t 0 (S k) (S k) Hnone ltac:(lia)) as Hk'.
  unfold break_at in Hk'.
  destruct (lookup_lt_is_Some_2 t (S k) Hk) as [c Hc]. rewrite Hc in Hk' |- *.
  rewrite Hk'. apply IH; [lia|].
  unfold breaks_between in *. apply not_true_is_false. intros Hex.
  apply existsb_exists in Hex as (x & Hin & Hx).
  apply list_elem_of_In, list_elem_of_lookup in Hin as [j Hj].
  apply lookup_take_Some in Hj as [Hj Hlt]. rewrite lookup_drop in Hj.
  pose proof (breaks_between_lookup t 0 (S k) (1 + j)) as Hcontra.
  unfold breaks_between, break_at in Hcontra. rewrite Hj, Hx in Hcontra.
  discriminate Hcontra; [exact Hnone | lia].
Qed.

Lemma choose_cut_returns m (t : text) :
  0 < m -> m < length t ->
  exists c, choose_cut m t = Return c /\ 1 <= c <= m.
Proof.
  intros Hm Ht. unfold choose_cut.
  destruct (find_cut_returns t m Ht) as (c & -> & Hc). simpl.
  destruct (Nat.eqb_spec c 0); eexists; (split; [reflexivity|lia]).
Qed.

Lemma choose_cut_at_break m (t : text) i :
  1 <= i <= m -> m < length t ->
  break_at t i = true -> breaks_between t i m = false ->
  choose_cut m t = Return i.
Proof.
  intros Hi Ht Hb Hnone. unfold choose_cut.
  rewrite (find_cut_at_break t i m) by done. simpl.
  destruct (Nat.eqb_spec i 0); [lia|done].
Qed.

Lemma choose_cut_no_break m (t : text) :
  m < length t -> breaks_between t 0 m = false ->
  choose_cut m t = Return m.
Proof.
  intros Ht Hnone. unfold choose_cut.
  by rewrite (find_cut_no_break t m).
Qed.

(** ** The loop *)

Lemma split_loop_cut m fuel (t : text) :
  m < length t ->
  split_loop m (S fuel) t =
    (cut_pos ← choose_cut m t;
     rest ← split_loop m fuel (lstrip (drop cut_pos t));
     mret (take cut_pos t :: rest)).
Proof.
  intros Ht. destruct t as [|c r]; [simpl in Ht; lia|].
  cbn [split_loop]. destruct (Nat.leb_spec (length (c :: r)) m); [lia|done].
Qed.

Lemma split_loop_short m fuel (t : text) :
  t <> [] -> length t <= m -> split_loop m (S fuel) t = Return [t].
Proof.
  intros Hne Ht. destruct t as [|c r]; [done|].
  cbn [split_loop]. destruct (Nat.leb_spec (length (c :: r)) m); [done|lia].
Qed.

(** With more iterations than characters the loop ends, and its parts
    split the text. *)
Lemma split_loop_splits m fuel (t : text) :
  0 < m -> length t < fuel ->
  exists ps, split_loop m fuel t = Return ps /\ splits_into m t ps.
Proof.
  intros Hm. revert t. induction fuel as [|fuel IH]; intros t Hfuel; [lia|].
  destruct (decide (t = [])) as [->|Hne].
  { exists []. split; [done|]. split; [constructor|]. by exists []. }
  destruct (decide (length t <= m)) as [Hshort|Hlong].
  { exists [t]. split; [by apply split_loop_short|]. split.
    - constructor; [|constructor]. destruct t; [done|simpl in *; lia].
    - exists [[]]. split; [done|]. split; [by constructor|].
      simpl. by rewrite !app_nil_r. }
  rewrite split_loop_cut by lia.
  destruct (choose_cut_returns m t Hm ltac:(lia)) as (c & -> & Hc). simpl.
  destruct (IH (lstrip (drop c t))) as (rest & -> & Hparts & gaps & Hlen & Hsp & Hcat).
  { pose proof (length_lstrip (drop c t)). rewrite length_drop in *. lia. }
  simpl. exists (take c t :: rest). split; [done|]. split.
  - constructor; [|done]. rewrite length_take. lia.
  - exists (leading_space (drop c t) :: gaps). split; [simpl; lia|]. split.
    + constructor; [apply leading_space_all_space|done].
    + simpl. rewrite Hcat, leading_space_lstrip. apply take_drop.
Qed.

(** The result does not depend on the iterations left over. *)
Lemma split_loop_fuel m fuel fuel' (t : text) :
  0 < m -> length t < fuel -> length t < fuel' ->
  split_loop m fuel t = split_loop m fuel' t.
Proof.
  intros Hm. revert fuel' t.
  induction fuel as [|fuel IH]; intros fuel' t H1 H2; [lia|].
  destruct fuel' as [|fuel']; [lia|].
  destruct (decide (t = [])) as [->|Hne]; [done|].
  destruct (decide (length t <= m)) as [Hshort|Hlong].
  { by rewrite !split_loop_short. }
  rewrite !split_loop_cut by lia.
  destruct (choose_cut_returns m t Hm ltac:(lia)) as (c & -> & Hc). simpl.
  rewrite (IH fuel'); [done| |].
  all: pose proof (length_lstrip (drop c t)); rewrite length_drop in *; lia.
Qed.

Lemma split_parts_splits m (t : text) :
  0 < m -> exists ps, split_parts m t = Return ps /\ splits_into m t ps.
Proof. intros Hm. apply split_loop_splits; [done|lia]. Qed.

(** One iteration of the loop on a long text. *)
Lemma split_parts_cut m (t : text) c :
  0 < m -> m < length t -> choose_cut m t = Return c ->
  exists rest,
    split_parts m (lstrip (drop c t)) = Return rest /\
    split_parts m t = Return (take c t :: rest).
Proof.
  intros Hm Ht Hc.
  destruct (split_parts_splits m (lstrip (drop c t)) Hm) as (rest & Hrest & _).
  exists rest. split; [done|].
  unfold split_parts in *. rewrite split_loop_cut by done. rewrite Hc. simpl.
  destruct (choose_cut_returns m t Hm Ht) as (c' & Hc' & Hle).
  assert (c' = c) as -> by congruence.
  rewrite (split_loop_fuel m _ (S (length (lstrip (drop c t))))), Hrest; [done|done| |lia].
  pose proof (length_lstrip (drop c t)). rewrite length_drop in *. lia.
Qed.

Lemma max_length_pos : 0 < max_length.
Proof. unfold max_length. lia. Qed.

Lemma segments_short (t : text) :
  length t <= max_length -> segments t = Return [t].
Proof.
  intros Ht. unfold segments, segments_of.
  destruct (Nat.leb_spec (length t) max_length); [done|lia].
Qed.

Lemma segments_long (t : text) :
  max_length < length t -> segments t = split_parts max_length t.
Proof.
  intros Ht. unfold segments, segments_of.
  destruct (Nat.leb_spec (length t) max_length); [lia|done].
Qed.

(** ** The segments of a text *)

(** C7. A text of at most 4096 characters is sent as exactly one segment,
    the text itself (one reply, so the total is 1); the empty text gives a
    single empty segment. *)
Theorem short_text_single_segment (t : text) (st : gmap Z (list Turn)) :
  length t <= max_length ->
  segments t = Return [t] /\
  send_long_message t st = (Return (), st, [ReplyText t]).
Proof.
  intros Ht. split; [by apply segments_short|].
  unfold send_long_message.
  destruct (Nat.leb_spec (length t) max_length); [done|lia].
Qed.

Lemma short_text_single_segment_empty :
  segments [] = Return [[]] /\
  send_long_message [] ∅ = (Return (), ∅, [ReplyText []]).
Proof.
  apply (short_text_single_segment [] ∅). unfold max_length. simpl. lia.
Defined.

(** C5. For every text the splitting ends and no segment is longer than
    4096 characters. *)
Theorem segments_within_limit (t : text) :
  exists ps, segments t = Return ps /\
             Forall (fun p : text => length p <= max_length) ps.
Proof.
  destruct (decide (length t <= max_length)) as [Hs|Hl].
  - exists [t]. split; [by apply segments_short|]. constructor; [done|constructor].
  - rewrite segments_long by lia.
    destruct (split_parts_splits max_length t max_length_pos)
      as (ps & Hps & Hall & _).
    exists ps. split; [done|]. eapply Forall_impl; [exact Hall|].
    simpl. intros p Hp. lia.
Qed.

(** C1, as the code has it.  For a text longer than 4096 characters whose
    last break character at an index from 1 to 4096 is at index [i], the
    first segment is [text[0:i]]: it stops before the break character, which
    starts the remainder.  The other segments are those of the remainder
    with its leading white space stripped; when that remainder fits in one
    message it is the second and last segment (none when nothing is left). *)
Theorem cut_before_last_break (t : text) (i : nat) :
  max_length < length t -> 1 <= i <= max_length ->
  break_at t i = true -> breaks_between t i max_length = false ->
  exists rest,
    segments t = Return (take i t :: rest) /\
    split_parts max_length (lstrip (drop i t)) = Return rest /\
    (length t - i <= max_length ->
     rest = match lstrip (drop i t) with [] => [] | c :: r => [c :: r] end).
Proof.
  intros Ht Hi Hb Hnone. rewrite segments_long by done.
  pose proof (choose_cut_at_break max_length t i Hi Ht Hb Hnone) as Hc.
  destruct (split_parts_cut max_length t i max_length_pos Ht Hc)
    as (rest & Hrest & Hps).
  exists rest. split; [done|]. split; [done|]. intros Hfit.
  unfold split_parts in Hrest.
  destruct (lstrip (drop i t)) as [|c r] eqn:Hrem.
  - simpl in Hrest. congruence.
  - rewrite split_loop_short in Hrest; [congruence|done|].
    pose proof (length_lstrip (drop i t)) as Hle.
    rewrite Hrem, length_drop in Hle. lia.
Qed.

Lemma cut_before_last_break_scenario :
  exists rest,
    segments scenario_text = Return (take 4080 scenario_text :: rest) /\
    split_parts max_length (lstrip (drop 4080 scenario_text)) = Return rest /\
    (length scenario_text - 4080 <= max_length ->
     rest = match lstrip (drop 4080 scenario_text) with
            | [] => []
            | c :: r => [c :: r]
            end).
Proof.
  apply (cut_before_last_break scenario_text 4080).
  - apply Nat.ltb_lt. vm_compute. reflexivity.
  - unfold max_length. lia.
  - vm_compute. reflexivity.
  - vm_compute. reflexivity.
Defined.

(** C1, as stated, fails on the scenario of the specification: the text has
    5000 characters, its last break character up to index 4096 is the space
    at index 4080, and the first segment is not [text[0:4081]]. *)
Lemma first_segment_excludes_break :
  length scenario_text = 4096 + 904 /\
  scenario_text !! 4080 = Some 32%N /\
  breaks_between scenario_text 4080 max_length = false /\
  segments scenario_text
    = Return [take 4080 scenario_text; drop 4081 scenario_text] /\
  ~ (exists rest,
       segments scenario_text = Return (take 4081 scenario_text :: rest)).
Proof.
  assert (Hseg : segments scenario_text
                 = Return [take 4080 scenario_text; drop 4081 scenario_text])
    by (vm_compute; reflexivity).
  split; [vm_compute; reflexivity|].
  split; [vm_compute; reflexivity|].
  split; [vm_compute; reflexivity|].
  split; [exact Hseg|].
  intros [rest H]. rewrite Hseg in H. injection H as H _.
  apply (f_equal length) in H. vm_compute in H. discriminate H.
Qed.

(** C4, as the code has it.  The splitting ends for every text, hard cuts
    included, and the text is rebuilt exactly from the segments by putting a
    run of white space back after each of them: the white space stripped
    between two segments, and after the last segment the white space that
    was stripped when nothing else was left. *)
Theorem segments_rebuild_text (t : text) :
  exists ps gaps,
    segments t = Return ps /\
    length gaps = length ps /\
    Forall (fun g : text => all_space g = true) gaps /\
    interleave ps gaps = t.
Proof.
  destruct (decide (length t <= max_length)) as [Hs|Hl].
  - exists [t], [[]]. split; [by apply segments_short|].
    split; [done|]. split; [by constructor|]. simpl. by rewrite !app_nil_r.
  - rewrite segments_long by lia.
    destruct (split_parts_splits max_length t max_length_pos)
      as (ps & Hps & _ & gaps & Hlen & Hsp & Hcat).
    by exists ps, gaps.
Qed.

(** C4, as stated, fails when the text ends in white space right after a
    cut: 4096 letters and a space give the single segment of the letters,
    and no white space put between consecutive segments brings the space
    back. *)
Lemma trailing_space_is_lost :
  segments trailing_space_text = Return [take 4096 trailing_space_text] /\
  ~ (exists gaps,
       length gaps = length [take 4096 trailing_space_text] - 1 /\
       Forall (fun g : text => all_space g = true) gaps /\
       interleave [take 4096 trailing_space_text] gaps = trailing_space_text).
Proof.
  split; [vm_compute; reflexivity|].
  intros (gaps & Hlen & _ & H).
  destruct gaps as [|g gaps]; [|discriminate Hlen].
  cbn [interleave] in H. apply (f_equal length) in H.
  vm_compute in H. discriminate H.
Qed.

Lemma Forall_removelast {A} (P : A -> Prop) (l : list A) :
  Forall P l -> Forall P (removelast l).
Proof.
  induction 1 as [|x l Hx Hl IH]; [constructor|].
  destruct l; [constructor|]. simpl. constructor; [done|exact IH].
Qed.

(** C10. When no index from 1 to 4096 holds a break character the first cut
    is a hard cut of exactly 4096 characters, whatever the character at index
    0 is: index 0 is never a cut point.  So every segment but the last is
    non-empty, for every text. *)
Theorem hard_cut_skips_index_zero :
  (forall t : text,
     max_length < length t -> breaks_between t 0 max_length = false ->
     exists rest,
       segments t = Return (take max_length t :: rest) /\
       length (take max_length t) = max_length) /\
  (forall t : text,
     exists ps, segments t = Return ps /\
                Forall (fun p : text => p <> []) (removelast ps)).
Proof.
  split.
  - intros t Ht Hnone. rewrite segments_long by done.
    pose proof (choose_cut_no_break max_length t Ht Hnone) as Hc.
    destruct (split_parts_cut max_length t _ max_length_pos Ht Hc)
      as (rest & _ & Hps).
    exists rest. split; [done|]. rewrite length_take. lia.
  - intros t. destruct (decide (length t <= max_length)) as [Hs|Hl].
    + exists [t]. split; [by apply segments_short|]. constructor.
    + rewrite segments_long by lia.
      destruct (split_parts_splits max_length t max_length_pos)
        as (ps & Hps & Hall & _).
      exists ps. split; [done|]. apply Forall_removelast.
      eapply Forall_impl; [exact Hall|]. simpl. intros [|c r] Hp; [|done].
      simpl in Hp. lia.
Qed.

Lemma hard_cut_skips_index_zero_space :
  break_at leading_space_text 0 = true /\
  exists rest,
    segments leading_space_text
      = Return (take max_length leading_space_text :: rest) /\
    length (take max_length leading_space_text) = max_length.
Proof.
  split; [vm_compute; reflexivity|].
  apply (proj1 hard_cut_skips_index_zero leading_space_text).
  - apply Nat.ltb_lt. vm_compute. reflexivity.
  - vm_compute. reflexivity.
Defined.

(** *** Running the steps of a handler *)

Lemma bind_return {A B} (m : Handler A) (f : A -> Handler B) st a st1 c1 o st2 c2 :
  m st = (Return a, st1, c1) -> f a st1 = (o, st2, c2) ->
  (m ≫= f) st = (o, st2, c1 ++ c2).
Proof.
  intros Hm Hf. unfold mbind, handler_mbind, handler_bind. by rewrite Hm, Hf.
Qed.

Lemma bind_raise {A B} (m : Handler A) (f : A -> Handler B) st e st1 c1 :
  m st = (Raise e, st1, c1) -> (m ≫= f) st = (Raise e, st1, c1).
Proof.
  intros Hm. unfold mbind, handler_mbind, handler_bind. by rewrite Hm.
Qed.

Lemma try_except_return {A} (body : Handler A) on_error st a st1 c1 :
  body st = (Return a, st1, c1) ->
  try_except body on_error st = (Return a, st1, c1).
Proof. intros Hb. unfold try_except. by rewrite Hb. Qed.

Lemma try_except_raise {A} (body : Handler A) on_error st e st1 c1 o st2 c2 :
  body st = (Raise e, st1, c1) -> on_error e st1 = (o, st2, c2) ->
  try_except body on_error st = (o, st2, c1 ++ c2).
Proof. intros Hb Hh. unfold try_except. by rewrite Hb, Hh. Qed.

(** ** Sending *)

Lemma send_parts_run total i (ps : list text) :
  exists msgs, forall st : gmap Z (list Turn),
    send_parts total i ps st = (Return (), st, map ReplyText msgs).
Proof.
  revert i. induction ps as [|p ps IH]; intros i; [by exists []|].
  destruct (IH (S i)) as [msgs Hmsgs]. eexists (_ :: msgs). intros st.
  cbn [send_parts]. eapply (bind_return _ _ _ _ _ [_]); [reflexivity|].
  apply Hmsgs.
Qed.

(** Sending always completes, leaves the store as it was and only replies. *)
Lemma send_long_message_run (t : text) :
  exists msgs, forall st : gmap Z (list Turn),
    send_long_message t st = (Return (), st, map ReplyText msgs).
Proof.
  unfold send_long_message. destruct (length t <=? max_length).
  - by exists [t].
  - destruct (split_parts_splits max_length t max_length_pos) as (ps & Hps & _).
    destruct (send_parts_run (length ps) 0 ps) as [msgs Hmsgs].
    exists msgs. intros st.
    eapply (bind_return _ _ _ _ _ []); [unfold lift; by rewrite Hps|].
    apply Hmsgs.
Qed.

Lemma replies_map_ReplyText (msgs : list text) :
  replies (map ReplyText msgs) = msgs.
Proof. induction msgs as [|m msgs IH]; simpl; [done|by rewrite IH]. Qed.

Lemma vision_prompts_map_ReplyText (msgs : list text) :
  vision_prompts (map ReplyText msgs) = [].
Proof. induction msgs as [|m msgs IH]; simpl; done. Qed.

(** ** One text message *)

Lemma trimmed_last_n (h : list Turn) : trimmed h = last_n 20 h.
Proof.
  unfold trimmed, last_n. destruct (Nat.ltb_spec 20 (length h)); [done|].
  replace (length h - 20) with 0 by lia. done.
Qed.

Lemma take_all_but_last {A} (l : list A) x :
  take (length (l ++ [x]) - 1) (l ++ [x]) = l.
Proof.
  rewrite length_app. simpl.
  replace (length l + 1 - 1) with (length l) by lia.
  by rewrite take_app_length.
Qed.

Lemma getitem_run user_id h (st : gmap Z (list Turn)) :
  st !! user_id = Some h -> getitem user_id st = (Return h, st, []).
Proof. intros Hh. unfold getitem. by rewrite Hh. Qed.

Lemma append_run user_id turn h (st : gmap Z (list Turn)) :
  st !! user_id = Some h ->
  append user_id turn st = (Return (), <[user_id := h ++ [turn]]> st, []).
Proof.
  intros Hh. unfold append.
  eapply (bind_return _ _ _ _ _ []); [by apply getitem_run|done].
Qed.

(** Lines 127-128 make the user known and run the rest on that store. *)
Lemma ensure_run {B} user_id (rest : Handler B) (st : gmap Z (list Turn)) :
  (known ← contains user_id;
   (if known : bool then mret () else setitem user_id []);; rest) st
  = rest (ensured user_id st).
Proof.
  unfold ensured, contains, setitem, mbind, handler_mbind, handler_bind,
    mret, handler_mret, handler_ret.
  destruct (st !! user_id) as [h|]; simpl;
    by destruct (rest _) as [[o st'] calls].
Qed.

Lemma ensured_lookup user_id (st : gmap Z (list Turn)) :
  ensured user_id st !! user_id = Some (history_of st user_id).
Proof.
  unfold ensured, history_of.
  destruct (st !! user_id) as [h|] eqn:Hh; simpl; [done|].
  apply lookup_insert_eq.
Qed.

Lemma ensured_insert user_id h (st : gmap Z (list Turn)) :
  <[user_id := h]> (ensured user_id st) = <[user_id := h]> st.
Proof.
  unfold ensured. destruct (st !! user_id); [done|apply insert_insert_eq].
Qed.

(** Lines 152-153 on a store that holds [h] for the user. *)
Lemma trim_run user_id h (st : gmap Z (list Turn)) :
  st !! user_id = Some h ->
  (if 20 <? length h
   then h' ← getitem user_id;
        setitem user_id (drop (length h' - 20) h')
   else mret ()) st
  = (Return (), <[user_id := trimmed h]> st, []).
Proof.
  intros Hh. unfold trimmed. destruct (20 <? length h).
  - eapply (bind_return _ _ _ _ _ []); [by apply getitem_run|done].
  - by rewrite insert_id.
Qed.

(** A message that the backend answers: both turns are appended and the
    history is cut to its last 20 turns. *)
Lemma handle_text_message_answered update response st :
  exists calls,
    handle_text_message update (Gives response) st =
      (Return (),
       <[effective_user update :=
           trimmed (history_of st (effective_user update)
                    ++ [user_turn update; model_turn response])]> st,
       calls).
Proof.
  set (uid := effective_user update). set (h := history_of st uid).
  destruct (send_long_message_run response) as [sent Hsent].
  eexists. unfold handle_text_message. fold uid.
  eapply bind_return; [reflexivity|].
  apply try_except_return. rewrite ensure_run.
  eapply bind_return; [apply append_run, ensured_lookup|].
  eapply bind_return; [apply getitem_run, lookup_insert_eq|].
  eapply bind_return; [reflexivity|].
  eapply bind_return; [apply append_run, lookup_insert_eq|].
  eapply bind_return; [apply getitem_run, lookup_insert_eq|].
  eapply bind_return; [apply trim_run, lookup_insert_eq|].
  rewrite !insert_insert_eq, ensured_insert. fold h.
  rewrite <- app_assoc. apply Hsent.
Qed.

(** A message on which the backend fails: the user turn stays, nothing is
    cut, and the user gets the error text. *)
Lemma handle_text_message_failed update cause st :
  handle_text_message update (Fails cause) st =
    (Return (),
     <[effective_user update :=
         history_of st (effective_user update) ++ [user_turn update]]> st,
     [SendChatAction (effective_chat update);
      GeminiChat (history_of st (effective_user update)) (message_text update);
      LoggerError (text_log cause);
      ReplyText (text_error cause)]).
Proof.
  set (uid := effective_user update). set (h := history_of st uid).
  unfold handle_text_message. fold uid.
  eapply (bind_return _ _ _ _ _ [_] _ _ [_; _; _]); [reflexivity|].
  eapply (try_except_raise _ _ _ _ _ [_] _ _ [_; _]).
  - rewrite ensure_run.
    eapply (bind_return _ _ _ _ _ [] _ _ [_]);
      [apply append_run, ensured_lookup|].
    eapply (bind_return _ _ _ _ _ [] _ _ [_]);
      [apply getitem_run, lookup_insert_eq|].
    apply bind_raise. unfold external, user_turn. fold h.
    rewrite (take_all_but_last h). rewrite ensured_insert. reflexivity.
  - reflexivity.
Qed.

(** C3, as the code has it.  When the backend fails on a text message the
    user turn appended before the call stays in the history, so the history
    is one turn longer than before; no model turn is appended, the
    histories of the other users are untouched, and the only message sent is
    one error message that contains the cause. *)
Theorem failed_text_keeps_user_turn update cause (st : gmap Z (list Turn)) :
  let uid := effective_user update in
  let run := handle_text_message update (Fails cause) st in
  outcome_of run = Return () /\
  history_of (store_after run) uid = history_of st uid ++ [user_turn update] /\
  length (history_of (store_after run) uid) = length (history_of st uid) + 1 /\
  (forall other, other <> uid -> store_after run !! other = st !! other) /\
  replies (calls_of run) = [text_error cause] /\
  (exists before after, text_error cause = before ++ cause ++ after).
Proof.
  intros uid run. unfold run. rewrite handle_text_message_failed.
  unfold outcome_of, store_after, calls_of, history_of. simpl. fold uid.
  rewrite lookup_insert_eq. simpl.
  split; [done|]. split; [done|]. split; [by rewrite length_app|].
  split; [intros other Hne; by rewrite lookup_insert_ne|].
  split; [done|]. unfold text_error. by eexists _, _.
Qed.

(** C3, as stated, fails: for a user without history the backend failure
    leaves a history of length 1, not 0. *)
Lemma failed_text_changes_length :
  let run := handle_text_message (text_update 7 7 [104; 105]%N)
               (Fails [53; 48; 51]%N) ∅ in
  length (history_of ∅ 7) = 0 /\
  length (history_of (store_after run) 7) = 1 /\
  length (history_of (store_after run) 7) <> length (history_of ∅ 7).
Proof.
  intros run. unfold run. rewrite handle_text_message_failed.
  unfold store_after, history_of. simpl. rewrite lookup_insert_eq.
  rewrite lookup_empty. simpl. done.
Qed.

(** ** Runs of text messages *)

Lemma last_n_app_last_n {A} n (l l' : list A) :
  last_n n (last_n n l ++ l') = last_n n (l ++ l').
Proof.
  unfold last_n. destruct (le_lt_dec n (length l)) as [Hge|Hlt].
  - rewrite !drop_app, drop_drop, !length_app, !length_drop.
    f_equal; f_equal; lia.
  - replace (length l - n) with 0 by lia. done.
Qed.

Lemma length_last_n {A} n (l : list A) : length (last_n n l) <= n.
Proof. unfold last_n. rewrite length_drop. lia. Qed.

Lemma history_after_answered update response (st : gmap Z (list Turn)) :
  history_of (store_after (handle_text_message update (Gives response) st))
             (effective_user update)
  = last_n 20 (history_of st (effective_user update)
               ++ [user_turn update; model_turn response]).
Proof.
  destruct (handle_text_message_answered update response st) as [calls ->].
  unfold store_after, history_of at 1. simpl.
  rewrite lookup_insert_eq. simpl. apply trimmed_last_n.
Qed.

Lemma length_exchange_turns (exchanges : list (text * text)) :
  length (flat_map exchange_turns exchanges) = 2 * length exchanges.
Proof. induction exchanges as [|e es IH]; simpl in *; lia. Qed.

Lemma drop_exchange_turns k (exchanges : list (text * text)) :
  drop (2 * k) (flat_map exchange_turns exchanges)
  = flat_map exchange_turns (drop k exchanges).
Proof.
  revert exchanges. induction k as [|k IH]; intros exchanges; [done|].
  destruct exchanges as [|e es]; [done|].
  replace (2 * S k) with (S (S (2 * k))) by lia. simpl. apply IH.
Qed.

(** Answered messages of one user: the history is the last 20 turns of what
    was there followed by all the exchanges. *)
Lemma handle_texts_answered user_id chat_id exchanges (st : gmap Z (list Turn)) :
  length (history_of st user_id) <= 20 ->
  history_of (handle_texts (map (answered user_id chat_id) exchanges) st) user_id
  = last_n 20 (history_of st user_id ++ flat_map exchange_turns exchanges).
Proof.
  revert st. induction exchanges as [|e es IH]; intros st Hlen.
  - simpl. rewrite app_nil_r. unfold last_n.
    replace (length (history_of st user_id) - 20) with 0 by lia. done.
  - cbn [map handle_texts answered flat_map].
    pose proof (history_after_answered (text_update user_id chat_id (fst e))
                  (snd e) st) as Hstep.
    cbn [effective_user text_update] in Hstep.
    rewrite IH; rewrite Hstep; [|apply length_last_n].
    rewrite last_n_app_last_n. by rewrite <- app_assoc.
Qed.

(** C6. For a user without history, after N answered messages (2N turns
    appended, user and model in turn) the history has min(2N, 20) turns, an
    even number, and starts with a user turn; it holds the turns of the last
    10 exchanges, so after 11 exchanges it has exactly 20 turns and the two
    turns of the first exchange are gone. *)
Theorem alternating_history_capped user_id chat_id
    (exchanges : list (text * text)) (st : gmap Z (list Turn)) :
  st !! user_id = None ->
  let h := history_of
             (handle_texts (map (answered user_id chat_id) exchanges) st)
             user_id in
  length h = Nat.min (2 * length exchanges) 20 /\
  Nat.even (length h) = true /\
  role <$> head h = match exchanges with [] => None | _ :: _ => Some user end /\
  h = flat_map exchange_turns (drop (length exchanges - 10) exchanges) /\
  (length exchanges = 11 ->
   length h = 20 /\ h = flat_map exchange_turns (drop 1 exchanges)).
Proof.
  intros Hfresh h.
  assert (Hh : h = flat_map exchange_turns
                     (drop (length exchanges - 10) exchanges)).
  { unfold h. rewrite handle_texts_answered.
    - unfold history_of at 1. rewrite Hfresh. simpl. unfold last_n.
      rewrite length_exchange_turns, <- drop_exchange_turns. f_equal. lia.
    - unfold history_of. rewrite Hfresh. simpl. lia. }
  assert (Hlen : length h = 2 * length (drop (length exchanges - 10) exchanges))
    by (rewrite Hh; apply length_exchange_turns).
  rewrite length_drop in Hlen.
  split; [lia|]. split.
  { rewrite Hlen. apply Nat.even_spec. eexists. reflexivity. }
  split.
  { rewrite Hh. destruct exchanges as [|e es]; [done|].
    destruct (drop (length (e :: es) - 10) (e :: es)) as [|e' es'] eqn:Hd;
      [|done].
    apply (f_equal length) in Hd. rewrite length_drop in Hd. simpl in Hd. lia. }
  split; [exact Hh|].
  intros H11. split; [lia|]. rewrite Hh, H11. done.
Qed.

Lemma alternating_history_capped_eleven :
  let h := history_of
             (handle_texts (map (answered 7 7) eleven_exchanges) ∅) 7 in
  length h = 20 /\ h = flat_map exchange_turns (drop 1 eleven_exchanges).
Proof.
  intros h.
  pose proof (alternating_history_capped 7 7 eleven_exchanges ∅
                (lookup_empty 7)) as H.
  cbv zeta in H. destruct H as (_ & _ & _ & _ & H11).
  exact (H11 eq_refl).
Defined.

Lemma handle_texts_app events events' (st : gmap Z (list Turn)) :
  handle_texts (events ++ events') st = handle_texts events' (handle_texts events st).
Proof.
  revert st. induction events as [|[update gemini] events IH]; intros st; [done|].
  simpl. apply IH.
Qed.

Lemma history_after_failed update cause (st : gmap Z (list Turn)) :
  history_of (store_after (handle_text_message update (Fails cause) st))
             (effective_user update)
  = history_of st (effective_user update) ++ [user_turn update].
Proof.
  rewrite handle_text_message_failed. unfold store_after, history_of at 1.
  simpl. by rewrite lookup_insert_eq.
Qed.

(** C2: the code on ten answered messages followed by one on which the
    backend fails.  The failure path appends the user turn and skips lines
    152-153, so the history has 21 turns; the next answered message then
    keeps the last 20 of 23 turns, which start with a model turn. *)
Theorem cap_exceeded_after_failure :
  length (history_of (handle_texts ten_answered_one_failed ∅) 7) = 21 /\
  role <$> head (history_of
                   (handle_texts (ten_answered_one_failed
                                  ++ [answered 7 7 (numbered_exchange 12)]) ∅) 7)
  = Some model.
Proof.
  assert (Hten : history_of
                   (handle_texts
                      (map (answered 7 7) (map numbered_exchange (seq 1 10))) ∅) 7
                 = flat_map exchange_turns (map numbered_exchange (seq 1 10))).
  { rewrite handle_texts_answered.
    - unfold history_of. rewrite lookup_empty. reflexivity.
    - unfold history_of. rewrite lookup_empty. simpl. lia. }
  assert (Hfail : history_of (handle_texts ten_answered_one_failed ∅) 7
                  = flat_map exchange_turns (map numbered_exchange (seq 1 10))
                    ++ [user_turn (text_update 7 7 [104; 105]%N)]).
  { unfold ten_answered_one_failed. rewrite handle_texts_app.
    cbn [handle_texts].
    pose proof (history_after_failed (text_update 7 7 [104; 105]%N)
                  [53; 48; 51]%N) as Hstep.
    cbn [effective_user text_update] in Hstep. by rewrite Hstep, Hten. }
  split.
  - rewrite Hfail. reflexivity.
  - rewrite handle_texts_app. cbn [handle_texts answered].
    pose proof (history_after_answered
                  (text_update 7 7 (fst (numbered_exchange 12)))
                  (snd (numbered_exchange 12))) as Hstep.
    cbn [effective_user text_update] in Hstep. rewrite Hstep, Hfail.
    reflexivity.
Qed.

(** ** One photo message *)

(** Every way a photo message can go: no photo in the update, the download
    fails, the vision model fails, or the description is sent.  The store
    is the one the handler started with in each of them. *)
Lemma handle_photo_message_no_photo update fetch vision (st : gmap Z (list Turn)) :
  last (message_photo update) = None ->
  handle_photo_message update fetch vision st =
    (Return (), st,
     [SendChatAction (effective_chat update);
      LoggerError (photo_log list_index_error);
      ReplyText (photo_error list_index_error)]).
Proof.
  intros Hlast. unfold handle_photo_message. rewrite Hlast.
  eapply (bind_return _ _ _ _ _ [_] _ _ [_; _]); [reflexivity|].
  eapply (try_except_raise _ _ _ _ _ [] _ _ [_; _]); [|reflexivity].
  by apply bind_raise.
Qed.

Lemma handle_photo_message_fetch_failed update photo cause vision
    (st : gmap Z (list Turn)) :
  last (message_photo update) = Some photo ->
  handle_photo_message update (Fails cause) vision st =
    (Return (), st,
     [SendChatAction (effective_chat update);
      FetchPhoto photo;
      LoggerError (photo_log cause);
      ReplyText (photo_error cause)]).
Proof.
  intros Hlast. unfold handle_photo_message. rewrite Hlast.
  eapply (bind_return _ _ _ _ _ [_] _ _ [_; _; _]); [reflexivity|].
  eapply (try_except_raise _ _ _ _ _ [_] _ _ [_; _]); [|reflexivity].
  eapply (bind_return _ _ _ _ _ [] _ _ [_]); [reflexivity|].
  by apply bind_raise.
Qed.

Lemma handle_photo_message_vision_failed update photo img cause
    (st : gmap Z (list Turn)) :
  last (message_photo update) = Some photo ->
  handle_photo_message update (Gives img) (Fails cause) st =
    (Return (), st,
     [SendChatAction (effective_chat update);
      FetchPhoto photo;
      GenerateContent (caption_or (message_caption update) default_prompt) img;
      LoggerError (photo_log cause);
      ReplyText (photo_error cause)]).
Proof.
  intros Hlast. unfold handle_photo_message. rewrite Hlast.
  eapply (bind_return _ _ _ _ _ [_] _ _ [_; _; _; _]); [reflexivity|].
  eapply (try_except_raise _ _ _ _ _ [_; _] _ _ [_; _]); [|reflexivity].
  eapply (bind_return _ _ _ _ _ [] _ _ [_; _]); [reflexivity|].
  eapply (bind_return _ _ _ _ _ [_] _ _ [_]); [reflexivity|].
  by apply bind_raise.
Qed.

Lemma handle_photo_message_described update photo img response :
  last (message_photo update) = Some photo ->
  exists msgs, forall st : gmap Z (list Turn),
    handle_photo_message update (Gives img) (Gives response) st =
      (Return (), st,
       [SendChatAction (effective_chat update);
        FetchPhoto photo;
        GenerateContent (caption_or (message_caption update) default_prompt) img]
       ++ map ReplyText msgs).
Proof.
  intros Hlast.
  destruct (send_long_message_run (analysis_label ++ response)) as [msgs Hsend].
  exists msgs. intros st. unfold handle_photo_message. rewrite Hlast.
  eapply (bind_return _ _ _ _ _ [_] _ _ (_ :: _ :: _)); [reflexivity|].
  apply try_except_return.
  eapply (bind_return _ _ _ _ _ [] _ _ (_ :: _ :: _)); [reflexivity|].
  eapply (bind_return _ _ _ _ _ [_] _ _ (_ :: _)); [reflexivity|].
  eapply (bind_return _ _ _ _ _ [_]); [reflexivity|].
  apply Hsend.
Qed.

(** The handler always completes, never changes the store, and what it does
    does not depend on the store. *)
Lemma handle_photo_message_run update fetch vision :
  exists calls, forall st : gmap Z (list Turn),
    handle_photo_message update fetch vision st = (Return (), st, calls).
Proof.
  destruct (last (message_photo update)) as [photo|] eqn:Hlast.
  - destruct fetch as [img|cause].
    + destruct vision as [response|cause].
      * destruct (handle_photo_message_described update photo img response Hlast)
          as [msgs Hrun].
        eexists. intros st. apply Hrun.
      * eexists. intros st. by apply handle_photo_message_vision_failed.
    + eexists. intros st. by apply handle_photo_message_fetch_failed.
  - eexists. intros st. by apply handle_photo_message_no_photo.
Qed.

(** C8. A photo message, whether the vision call succeeds or fails, leaves
    the whole store unchanged, so the history of every user is what it was;
    and the handler does the same calls whatever the store holds: it neither
    writes nor reads a history. *)
Theorem photo_leaves_histories update fetch vision (st : gmap Z (list Turn)) :
  outcome_of (handle_photo_message update fetch vision st) = Return () /\
  store_after (handle_photo_message update fetch vision st) = st /\
  (forall user_id,
     history_of (store_after (handle_photo_message update fetch vision st))
                user_id
     = history_of st user_id) /\
  (forall st' : gmap Z (list Turn),
     calls_of (handle_photo_message update fetch vision st')
     = calls_of (handle_photo_message update fetch vision st)).
Proof.
  destruct (handle_photo_message_run update fetch vision) as [calls Hrun].
  split; [by rewrite Hrun|]. split; [by rewrite Hrun|].
  split; [intros user_id; by rewrite Hrun|].
  intros st'. by rewrite !Hrun.
Qed.

(** C9. With a caption that is the empty string the vision model is called
    with the default prompt, and the handler behaves exactly as for the
    same update without caption. *)
Theorem empty_caption_uses_default_prompt update photo img vision
    (st : gmap Z (list Turn)) :
  message_caption update = Some [] ->
  last (message_photo update) = Some photo ->
  vision_prompts
    (calls_of (handle_photo_message update (Gives img) vision st))
  = [default_prompt] /\
  (forall fetch,
     handle_photo_message update fetch vision st
     = handle_photo_message (without_caption update) fetch vision st).
Proof.
  intros Hcap Hlast. split.
  - destruct vision as [response|cause].
    + destruct (handle_photo_message_described update photo img response Hlast)
        as [msgs Hrun].
      rewrite Hrun, Hcap. unfold calls_of. simpl.
      by rewrite vision_prompts_map_ReplyText.
    + rewrite (handle_photo_message_vision_failed update photo img cause st Hlast).
      by rewrite Hcap.
  - intros fetch. unfold handle_photo_message, without_caption. simpl.
    by rewrite Hcap.
Qed.

Lemma empty_caption_uses_default_prompt_sample :
  vision_prompts
    (calls_of (handle_photo_message empty_caption_photo (Gives 5%N)
                 (Gives [111; 107]%N) ∅))
  = [default_prompt] /\
  (forall fetch,
     handle_photo_message empty_caption_photo fetch (Gives [111; 107]%N) ∅
     = handle_photo_message (without_caption empty_caption_photo) fetch
         (Gives [111; 107]%N) ∅).
Proof.
  apply (empty_caption_uses_default_prompt empty_caption_photo 13%N).
  - reflexivity.
  - reflexivity.
Defined.

(** ** More on the splitting and on sending *)

Lemma find_cut_break (t : text) k c :
  find_cut t k = Return c -> c = 0 \/ break_at t c = true.
Proof.
  induction k as [|k IH]; simpl; [intros [= <-]; by left|].
  destruct (t !! S k) as [ch|] eqn:Hch; [|done].
  destruct (is_break ch) eqn:Hb; [|exact IH].
  intros [= <-]. right. unfold break_at. by rewrite Hch.
Qed.

(** The scan of lines 221-226 on a text longer than 4096 characters never
    indexes outside the text: it yields a cut position between 1 and 4096,
    which is the index of a break character or else 4096. *)
Theorem cut_position_in_range (t : text) :
  max_length < length t ->
  exists c, choose_cut max_length t = Return c /\
            1 <= c <= max_length /\
            (break_at t c = true \/ c = max_length).
Proof.
  intros Ht. unfold choose_cut.
  destruct (find_cut_returns t max_length Ht) as (c & Hc & Hle).
  rewrite Hc. simpl. pose proof max_length_pos.
  destruct (Nat.eqb_spec c 0) as [->|Hne].
  - exists max_length. split; [done|]. split; [lia|by right].
  - exists c. split; [done|]. split; [lia|].
    destruct (find_cut_break t max_length c Hc); [lia|by left].
Qed.

Lemma cut_position_in_range_scenario :
  exists c, choose_cut max_length scenario_text = Return c /\
            1 <= c <= max_length /\
            (break_at scenario_text c = true \/ c = max_length).
Proof.
  apply (cut_position_in_range scenario_text).
  apply Nat.ltb_lt. vm_compute. reflexivity.
Defined.

Lemma split_loop_solid m fuel (t : text) :
  0 < m -> length t < fuel ->
  (t = [] \/ starts_solid t = true) ->
  exists ps, split_loop m fuel t = Return ps /\
             Forall (fun p : text => starts_solid p = true) ps.
Proof.
  intros Hm. revert t. induction fuel as [|fuel IH]; intros t Hfuel Ht; [lia|].
  destruct (decide (t = [])) as [->|Hne]; [exists []; by split|].
  destruct Ht as [Ht|Ht]; [done|].
  destruct (decide (length t <= m)) as [Hshort|Hlong].
  { exists [t]. split; [by apply split_loop_short|]. by repeat constructor. }
  rewrite split_loop_cut by lia.
  destruct (choose_cut_returns m t Hm ltac:(lia)) as (c & -> & Hc). simpl.
  destruct (IH (lstrip (drop c t))) as (rest & -> & Hrest).
  { pose proof (length_lstrip (drop c t)). rewrite length_drop in *. lia. }
  { destruct (lstrip (drop c t)) as [|d r] eqn:Hd; [by left|right].
    simpl. by rewrite (lstrip_head _ _ _ Hd). }
  simpl. eexists. split; [done|]. constructor; [|done].
  destruct t as [|ch r]; [done|]. destruct c as [|c]; [lia|]. exact Ht.
Qed.

(** Every segment after the first starts with a character that is not white
    space: the white space after a cut is never sent. *)
Theorem later_segments_start_solid (t : text) :
  exists ps, segments t = Return ps /\
             Forall (fun p : text => starts_solid p = true) (tail ps).
Proof.
  destruct (decide (length t <= max_length)) as [Hs|Hl].
  - exists [t]. split; [by apply segments_short|]. constructor.
  - rewrite segments_long by lia.
    destruct (choose_cut_returns max_length t max_length_pos ltac:(lia))
      as (c & Hc & Hle).
    destruct (split_parts_cut max_length t c max_length_pos ltac:(lia) Hc)
      as (rest & Hrest & Hps).
    exists (take c t :: rest). split; [done|]. simpl.
    destruct (split_loop_solid max_length (S (length (lstrip (drop c t))))
                (lstrip (drop c t)) max_length_pos ltac:(lia)) as (ps & Hps' & Hall).
    { destruct (lstrip (drop c t)) as [|d r] eqn:Hd; [by left|right].
      simpl. by rewrite (lstrip_head _ _ _ Hd). }
    unfold split_parts in Hrest. congruence.
Qed.

Lemma send_parts_replies total i (ps : list text) :
  exists msgs,
    (forall st : gmap Z (list Turn),
       send_parts total i ps st = (Return (), st, map ReplyText msgs)) /\
    length msgs = length ps /\
    (forall j part, ps !! j = Some part ->
                    msgs !! j = Some (reply_for total (i + j) part)).
Proof.
  revert i. induction ps as [|p ps IH]; intros i.
  { exists []. split; [done|]. split; [done|]. intros j part Hj. done. }
  destruct (IH (S i)) as (msgs & Hrun & Hlen & Hat).
  exists (reply_for total i p :: msgs). split; [|split].
  - intros st. cbn [send_parts].
    eapply (bind_return _ _ _ _ _ [_]); [reflexivity|]. apply Hrun.
  - simpl. by rewrite Hlen.
  - intros [|j] part Hj; simpl in *.
    + injection Hj as <-. by rewrite Nat.add_0_r.
    + rewrite (Hat j part Hj). do 2 f_equal. lia.
Qed.

Lemma send_long_message_replies (t : text) :
  exists ps msgs,
    segments t = Return ps /\
    (forall st : gmap Z (list Turn),
       send_long_message t st = (Return (), st, map ReplyText msgs)) /\
    length msgs = length ps /\
    (forall j part, ps !! j = Some part ->
                    msgs !! j = Some (reply_for (length ps) j part)).
Proof.
  unfold segments, segments_of, send_long_message.
  destruct (length t <=? max_length).
  - exists [t], [t]. split; [done|]. split; [done|]. split; [done|].
    intros [|j] part Hj; [|done]. by injection Hj as <-.
  - destruct (split_parts_splits max_length t max_length_pos) as (ps & Hps & _).
    destruct (send_parts_replies (length ps) 0 ps) as (msgs & Hrun & Hlen & Hat).
    exists ps, msgs. split; [done|]. split; [|split; [done|exact Hat]].
    intros st. eapply (bind_return _ _ _ _ _ []);
      [unfold lift; by rewrite Hps|]. apply Hrun.
Qed.


Lemma length_continuation number total : 22 <= length (continuation number total).
Proof. unfold continuation. rewrite !length_app. simpl. lia. Qed.

(** The header makes every reply after the first at least 22 characters
    longer than its segment, so a later segment of more than 4074 characters
    is sent as a reply of more than 4096 characters. *)
Theorem continuation_reply_exceeds_limit (t : text) (st : gmap Z (list Turn))
    ps j part :
  segments t = Return ps -> 0 < j -> ps !! j = Some part ->
  max_length < length part + 22 ->
  exists reply,
    replies (calls_of (send_long_message t st)) !! j = Some reply /\
    length part + 22 <= length reply /\
    max_length < length reply.
Proof.
  intros Hseg Hj Hpart Hlong.
  destruct (send_long_message_replies t) as (ps' & msgs & Hseg' & Hrun & _ & Hat).
  assert (ps' = ps) as -> by congruence.
  rewrite Hrun. unfold calls_of. simpl. rewrite replies_map_ReplyText.
  eexists. split; [by apply Hat|].
  unfold reply_for. destruct (Nat.eqb_spec j 0); [lia|].
  rewrite length_app. pose proof (length_continuation (j + 1) (length ps)). lia.
Qed.

Lemma continuation_reply_exceeds_limit_long :
  exists reply,
    replies (calls_of (send_long_message long_plain_text ∅)) !! 1 = Some reply /\
    length (take 4096 long_plain_text) + 22 <= length reply /\
    max_length < length reply.
Proof.
  apply (continuation_reply_exceeds_limit long_plain_text ∅
           [take 4096 long_plain_text; take 4096 long_plain_text;
            drop (4096 + 4096) long_plain_text]).
  - vm_compute. reflexivity.
  - lia.
  - reflexivity.
  - apply Nat.ltb_lt. vm_compute. reflexivity.
Defined.

(** ** More on text messages *)


(** After an answered message the history of the sender has at most 20
    turns, whatever it held before (also more than 20 after failures), and
    it ends with the user turn and the model turn of this message. *)
Theorem answered_text_within_cap update response (st : gmap Z (list Turn)) :
  let h' := history_of
              (store_after (handle_text_message update (Gives response) st))
              (effective_user update) in
  length h' <= 20 /\
  h' = last_n 20 (history_of st (effective_user update)
                  ++ [user_turn update; model_turn response]) /\
  exists older, h' = older ++ [user_turn update; model_turn response].
Proof.
  intros h'. unfold h'. rewrite history_after_answered.
  split; [apply length_last_n|]. split; [done|].
  unfold last_n. rewrite drop_app, length_app. simpl.
  set (h := history_of st (effective_user update)).
  replace (length h + 2 - 20 - length h) with 0 by lia. simpl. by eexists.
Qed.

(** A text message, answered or not, changes the entry of its sender only. *)
Theorem text_message_touches_sender_only update gemini
    (st : gmap Z (list Turn)) other :
  other <> effective_user update ->
  store_after (handle_text_message update gemini st) !! other = st !! other.
Proof.
  intros Hne. destruct gemini as [response|cause].
  - destruct (handle_text_message_answered update response st) as [calls ->].
    unfold store_after. simpl. by rewrite lookup_insert_ne.
  - rewrite handle_text_message_failed. unfold store_after. simpl.
    by rewrite lookup_insert_ne.
Qed.

Lemma text_message_touches_sender_only_sample :
  store_after (handle_text_message (text_update 7 7 [104; 105]%N)
                 (Gives [111; 107]%N) (<[8%Z := [model_turn [120]%N]]> ∅)) !! 8%Z
  = (<[8%Z := [model_turn [120]%N]]> ∅ : gmap Z (list Turn)) !! 8%Z.
Proof.
  apply (text_message_touches_sender_only (text_update 7 7 [104; 105]%N)).
  simpl. lia.
Defined.

Lemma alternates_app first (h h' : list Turn) :
  alternates first (h ++ h')
  = alternates first h
    && alternates (if Nat.even (length h) then first else other_role first) h'.
Proof.
  revert first. induction h as [|t h IH]; intros first; [done|].
  cbn [app alternates length]. rewrite IH, Nat.even_succ, <- Nat.negb_even.
  destruct (Nat.even (length h)), first; simpl; by rewrite ?andb_assoc.
Qed.

Lemma paired_step (h : list Turn) u m :
  role u = user -> role m = model ->
  paired h -> paired (last_n 20 (h ++ [u; m])).
Proof.
  intros Hu Hm (Halt & Heven & Hlen).
  assert (Hall : alternates user (h ++ [u; m]) = true).
  { rewrite alternates_app, Halt, Heven. simpl. by rewrite Hu, Hm. }
  assert (Hlen2 : length (h ++ [u; m]) = length h + 2)
    by (by rewrite length_app).
  assert (Heven2 : Nat.even (length h + 2) = true)
    by (rewrite Nat.add_comm; exact Heven).
  unfold last_n. rewrite Hlen2.
  destruct (decide (length h + 2 <= 20)) as [Hfit|Hover].
  - replace (length h + 2 - 20) with 0 by lia. rewrite drop_0.
    unfold paired. rewrite Hlen2. split; [exact Hall|]. split; [exact Heven2|lia].
  - assert (length h = 19 \/ length h = 20) as [H19|H20] by lia.
    + rewrite H19 in Heven. discriminate Heven.
    + replace (length h + 2 - 20) with 2 by lia.
      destruct h as [|t1 [|t2 h]]; [simpl in H20; lia..|].
      cbn [app skipn]. cbn [app alternates other_role] in Hall.
      apply andb_prop in Hall as [_ Hall]. apply andb_prop in Hall as [_ Hall].
      rewrite ?drop_0. unfold paired. rewrite length_app. cbn [length] in *.
      split; [exact Hall|]. split; [|lia].
      rewrite Nat.add_comm. exact Heven.
Qed.

(** Answered messages keep every history paired.  If the history of every
    user alternates between user and model turns, starts with a user turn,
    and has an even length of at most 20, then so it does after any run of
    answered text messages of any users. *)
Theorem answered_texts_keep_paired events (st : gmap Z (list Turn)) :
  forallb is_answered events = true ->
  (forall user_id, paired (history_of st user_id)) ->
  forall user_id, paired (history_of (handle_texts events st) user_id).
Proof.
  revert st. induction events as [|[update gemini] events IH];
    intros st Hans Hst; [exact Hst|].
  cbn [forallb] in Hans. apply andb_prop in Hans as [Hthis Hans].
  destruct gemini as [response|cause]; [|discriminate Hthis].
  cbn [handle_texts]. apply IH; [exact Hans|]. intros user_id.
  destruct (decide (user_id = effective_user update)) as [->|Hne].
  - rewrite history_after_answered. by apply paired_step.
  - unfold history_of.
    destruct (handle_text_message_answered update response st) as [calls ->].
    unfold store_after. simpl. rewrite lookup_insert_ne by done. apply Hst.
Qed.

Lemma answered_texts_keep_paired_two_users :
  paired (history_of (handle_texts two_users_events ∅) 7).
Proof.
  apply (answered_texts_keep_paired two_users_events ∅).
  - reflexivity.
  - intros user_id. unfold history_of. rewrite lookup_empty.
    split; [reflexivity|]. split; [reflexivity|]. simpl. lia.
Defined.

(** ** Starting over *)

Lemma new_chat_command_run update (st : gmap Z (list Turn)) :
  new_chat_command update st
  = (Return (), <[effective_user update := []]> st, [ReplyText reset_text]).
Proof. reflexivity. Qed.

(** After [/new] the user is as good as new: whatever the history held
    before (also more than 20 turns), a run of answered messages of that
    user leaves the turns of its last 10 exchanges, as for a user never
    seen. *)
Theorem new_chat_then_answered update chat_id (exchanges : list (text * text))
    (st : gmap Z (list Turn)) :
  history_of
    (handle_texts (map (answered (effective_user update) chat_id) exchanges)
       (store_after (new_chat_command update st)))
    (effective_user update)
  = flat_map exchange_turns (drop (length exchanges - 10) exchanges).
Proof.
  rewrite new_chat_command_run. unfold store_after. simpl.
  rewrite handle_texts_answered.
  - unfold history_of at 1. rewrite lookup_insert_eq. simpl. unfold last_n.
    rewrite length_exchange_turns, <- drop_exchange_turns. f_equal. lia.
  - unfold history_of. rewrite lookup_insert_eq. simpl. lia.
Qed.


(** ** More on photo messages *)

(** A caption that is not empty is the prompt given to the vision model,
    unchanged. *)
Theorem caption_is_the_prompt update photo img vision (st : gmap Z (list Turn))
    c r :
  message_caption update = Some (c :: r) ->
  last (message_photo update) = Some photo ->
  vision_prompts
    (calls_of (handle_photo_message update (Gives img) vision st))
  = [c :: r].
Proof.
  intros Hcap Hlast. destruct vision as [response|cause].
  - destruct (handle_photo_message_described update photo img response Hlast)
      as [msgs Hrun].
    rewrite Hrun, Hcap. unfold calls_of. simpl.
    by rewrite vision_prompts_map_ReplyText.
  - rewrite (handle_photo_message_vision_failed update photo img cause st Hlast).
    by rewrite Hcap.
Qed.

Lemma caption_is_the_prompt_sample :
  vision_prompts
    (calls_of (handle_photo_message captioned_photo (Gives 5%N)
                 (Fails [53; 48; 51]%N) ∅))
  = [[99; 97; 116]%N].
Proof.
  apply (caption_is_the_prompt captioned_photo 13%N); reflexivity.
Defined.

(** The photo that is fetched is the last one of the update, the largest
    size, and the vision model is called at most once and only with a
    fetched image: not at all when the update has no photo or the download
    fails. *)
Theorem photo_fetches_last_size update fetch vision (st : gmap Z (list Turn)) :
  let calls := calls_of (handle_photo_message update fetch vision st) in
  match last (message_photo update) with
  | Some photo =>
      calls !! 1 = Some (FetchPhoto photo) /\
      match fetch with
      | Gives img =>
          vision_prompts calls
          = [caption_or (message_caption update) default_prompt] /\
          calls !! 2
          = Some (GenerateContent
                    (caption_or (message_caption update) default_prompt) img)
      | Fails _ => vision_prompts calls = []
      end
  | None => vision_prompts calls = [] /\
            forall photo, ~ In (FetchPhoto photo) calls
  end.
Proof.
  intros calls. unfold calls.
  destruct (last (message_photo update)) as [photo|] eqn:Hlast.
  - destruct fetch as [img|cause].
    + destruct vision as [response|cause].
      * destruct (handle_photo_message_described update photo img response Hlast)
          as [msgs Hrun].
        rewrite Hrun. unfold calls_of. simpl.
        by rewrite vision_prompts_map_ReplyText.
      * by rewrite (handle_photo_message_vision_failed update photo img cause st
                      Hlast).
    + by rewrite (handle_photo_message_fetch_failed update photo cause vision st
                    Hlast).
  - rewrite (handle_photo_message_no_photo update fetch vision st Hlast).
    split; [done|]. intros photo. unfold calls_of. simpl.
    intros [H|[H|[H|[]]]]; discriminate H.
Qed.

(** When the photo handler gets no description (no photo in the update, a
    failed download, a failed vision call) the user receives exactly one
    message, the error text with the cause between back quotes. *)
Theorem photo_failure_single_error update fetch vision
    (st : gmap Z (list Turn)) cause :
  match last (message_photo update), fetch, vision with
  | None, _, _ => cause = list_index_error
  | Some _, Fails e, _ => cause = e
  | Some _, Gives _, Fails e => cause = e
  | Some _, Gives _, Gives _ => False
  end ->
  replies (calls_of (handle_photo_message update fetch vision st))
  = [photo_error cause] /\
  exists before, photo_error cause = before ++ cause ++ [96]%N.
Proof.
  intros Hcase. split; [|unfold photo_error; by eexists].
  destruct (last (message_photo update)) as [photo|] eqn:Hlast.
  - destruct fetch as [img|e].
    + destruct vision as [response|e]; [done|]. subst e.
      by rewrite (handle_photo_message_vision_failed update photo img cause st
                    Hlast).
    + subst e.
      by rewrite (handle_photo_message_fetch_failed update photo cause vision st
                    Hlast).
  - subst cause.
    by rewrite (handle_photo_message_no_photo update fetch vision st Hlast).
Qed.

Lemma photo_failure_single_error_sample :
  replies (calls_of (handle_photo_message captioned_photo
                       (Fails [53; 48; 51]%N) (Gives [111; 107]%N) ∅))
  = [photo_error [53; 48; 51]%N] /\
  exists before, photo_error [53; 48; 51]%N = before ++ [53; 48; 51]%N ++ [96]%N.
Proof.
  apply (photo_failure_single_error captioned_photo (Fails [53; 48; 51]%N)
           (Gives [111; 107]%N) ∅ [53; 48; 51]%N).
  reflexivity.
Defined.



(** ** Texts without a place to break *)

Lemma plain_drop (t : text) n :
  forallb is_plain t = true -> forallb is_plain (drop n t) = true.
Proof.
  intros Hall. apply forallb_forall. intros x Hin.
  apply (proj1 (forallb_forall _ _) Hall).
  apply list_elem_of_In. apply list_elem_of_In in Hin.
  apply list_elem_of_lookup in Hin as [j Hj]. rewrite lookup_drop in Hj.
  by apply list_elem_of_lookup_2 in Hj.
Qed.

Lemma plain_no_breaks (t : text) i k :
  forallb is_plain t = true -> breaks_between t i k = false.
Proof.
  intros Hall. unfold breaks_between. apply not_true_is_false. intros Hex.
  apply existsb_exists in Hex as (x & Hin & Hx).
  apply list_elem_of_In, list_elem_of_lookup in Hin as [j Hj].
  apply lookup_take_Some in Hj as [Hj _]. rewrite lookup_drop in Hj.
  apply list_elem_of_lookup_2, list_elem_of_In in Hj.
  pose proof (proj1 (forallb_forall _ _) Hall x Hj) as Hplain.
  unfold is_plain in Hplain. rewrite Hx in Hplain. discriminate Hplain.
Qed.

Lemma plain_lstrip (t : text) : forallb is_plain t = true -> lstrip t = t.
Proof.
  destruct t as [|c r]; [done|]. simpl. unfold is_plain.
  destruct (is_space c); [|done]. by rewrite andb_false_r.
Qed.

Lemma split_loop_plain m fuel (t : text) :
  0 < m -> length t < fuel -> forallb is_plain t = true ->
  exists ps, split_loop m fuel t = Return ps /\
             concat ps = t /\
             Forall (fun p : text => length p = m) (removelast ps).
Proof.
  intros Hm. revert t. induction fuel as [|fuel IH]; intros t Hfuel Hplain; [lia|].
  destruct (decide (t = [])) as [->|Hne].
  { exists []. split; [done|]. split; [done|constructor]. }
  destruct (decide (length t <= m)) as [Hshort|Hlong].
  { exists [t]. split; [by apply split_loop_short|].
    split; [simpl; by rewrite app_nil_r|constructor]. }
  rewrite split_loop_cut by lia.
  rewrite (choose_cut_no_break m t) by (lia || by apply plain_no_breaks).
  simpl. rewrite plain_lstrip by (by apply plain_drop).
  destruct (IH (drop m t)) as (rest & -> & Hcat & Hfull).
  { rewrite length_drop. lia. }
  { by apply plain_drop. }
  simpl. exists (take m t :: rest). split; [done|]. split.
  - simpl. rewrite Hcat. apply take_drop.
  - destruct rest as [|p rest]; [constructor|].
    change (removelast (take m t :: p :: rest))
      with (take m t :: removelast (p :: rest)).
    constructor; [|exact Hfull]. rewrite length_take. lia.
Qed.

(** A text in which no character is a break character or white space is cut
    into consecutive pieces of exactly 4096 characters, the last one
    shorter or equal: the segments written one after the other are the text,
    nothing is stripped. *)
Theorem plain_text_cut_exact (t : text) :
  forallb is_plain t = true ->
  exists ps, segments t = Return ps /\
             concat ps = t /\
             Forall (fun p : text => length p = max_length) (removelast ps).
Proof.
  intros Hplain. destruct (decide (length t <= max_length)) as [Hs|Hl].
  - exists [t]. split; [by apply segments_short|].
    split; [simpl; by rewrite app_nil_r|constructor].
  - rewrite segments_long by lia.
    apply split_loop_plain; [apply max_length_pos|lia|done].
Qed.

Lemma plain_text_cut_exact_long :
  exists ps, segments long_plain_text = Return ps /\
             concat ps = long_plain_text /\
             Forall (fun p : text => length p = max_length) (removelast ps).
Proof.
  apply (plain_text_cut_exact long_plain_text). vm_compute. reflexivity.
Defined.
